(** * PlayProof scoring service

    The endpoint of [services/scoring/main.py], and the components of the
    scoring engine that its specification describes.

    The first part embeds [main.py] as it is written: the [VerificationResult]
    enumeration, the three pydantic models and the two handlers.  A Python
    float is an IEEE-754 binary64 value and is embedded as a primitive float;
    a Python [dict] with string keys is a finite map. *)

From Stdlib Require Import ZArith List Floats Lia.
From stdpp Require Import base option strings list gmap fin_maps.

Set Warnings "-register-all,-inexact-float".

Local Open Scope string_scope.
Local Open Scope list_scope.

(** ** Python values carried by [dict] fields *)

(** What a JSON-decoded [dict] can hold: [Event.data] arrives as one and
    [ScoringResponse.details] is built as one. *)
Inductive PyValue : Type :=
  | PyNone
  | PyBool (b : bool)
  | PyInt (n : Z)
  | PyFloat (x : float)
  | PyStr (s : string)
  | PyList (items : list PyValue)
  | PyDict (entries : gmap string PyValue).

Abbreviation PyDictT := (gmap string PyValue).

(** A call either returns a value or raises. *)
Inductive Outcome (A : Type) : Type :=
  | Returned (value : A)
  | Raised (exn : string).
Arguments Returned {A} value.
Arguments Raised {A} exn.

(** ** [main.py] *)

(** [class VerificationResult(str, Enum)] *)
Inductive VerificationResult : Type :=
  | PASS
  | FAIL
  | REGENERATE
  | STEP_UP.

#[global] Instance VerificationResult_eq_dec : EqDecision VerificationResult.
Proof. solve_decision. Defined.

(** The [str] value of each member, which is what a response carries on the
    wire. *)
Definition VerificationResult_value (v : VerificationResult) : string :=
  match v with
  | PASS => "PASS"
  | FAIL => "FAIL"
  | REGENERATE => "REGENERATE"
  | STEP_UP => "STEP_UP"
  end.

(** [VerificationResult(value)], the lookup of a member by its value that
    [Enum] gives the class: the member whose value is [value], and a
    [ValueError] for a string that is the value of none. *)
Definition VerificationResult_of_value (value : string)
  : Outcome VerificationResult :=
  if String.eqb value "PASS" then Returned PASS
  else if String.eqb value "FAIL" then Returned FAIL
  else if String.eqb value "REGENERATE" then Returned REGENERATE
  else if String.eqb value "STEP_UP" then Returned STEP_UP
  else Raised "ValueError".

(** [class Event(BaseModel)].  The source's field [type] is a Rocq keyword
    and is spelled [type_]. *)
Record Event : Type := mkEvent {
  type_ : string;
  timestamp : float;
  data : PyDictT
}.

(** [class ScoringRequest(BaseModel)] *)
Record ScoringRequest : Type := mkScoringRequest {
  session_id : string;
  events : list Event
}.

(** [class ScoringResponse(BaseModel)], with
    [details: Optional[dict] = None]. *)
Record ScoringResponse : Type := mkScoringResponse {
  result : VerificationResult;
  confidence : float;
  details : option PyDictT
}.

(** A handler runs inside the server process: [Handler W A] may read and
    update the process state [W], and returns or raises. *)
Definition Handler (W A : Type) : Type := W -> Outcome A * W.

Definition ret {W A : Type} (a : A) : Handler W A := fun w => (Returned a, w).

Definition bind {W A B : Type} (m : Handler W A) (k : A -> Handler W B)
  : Handler W B :=
  fun w =>
    match m w with
    | (Returned a, w') => k a w'
    | (Raised e, w') => (Raised e, w')
    end.

(** The value a run returned, if it returned. *)
Definition response_of {W A : Type} (r : Outcome A * W) : option A :=
  match r with
  | (Returned a, _) => Some a
  | (Raised _, _) => None
  end.

(** [len(xs)] of a Python list. *)
Definition len {A : Type} (xs : list A) : Z := Z.of_nat (length xs).

Section Handlers.

(** The handlers are written against any process state: [main.py] defines no
    global besides [app], and the bodies of the handlers name none. *)
Context {W : Type}.

(** [@app.get("/health")] *)
Definition health : Handler W PyDictT :=
  ret (<["status" := PyStr "ok"]>
        (<["service" := PyStr "playproof-scoring"]> ∅)).

(** [@app.post("/score", response_model=ScoringResponse)] *)
Definition score (request : ScoringRequest) : Handler W ScoringResponse :=
  ret {| result := PASS;
         confidence := 0.95%float;
         details :=
           Some (<["placeholder" := PyBool true]>
                  (<["events_received" := PyInt (len (events request))]> ∅)) |}.

(** The process answering a sequence of requests, one after the other. *)
Fixpoint serve (requests : list ScoringRequest)
  : Handler W (list ScoringResponse) :=
  match requests with
  | [] => ret []
  | request :: later =>
      bind (score request) (fun first =>
      bind (serve later) (fun others => ret (first :: others)))
  end.

End Handlers.

(** ** The components [score] would depend on *)

(** The infrastructure errors of the specification's error taxonomy. *)
Inductive InfraError : Type :=
  | ModelUnavailable
  | CalibrationUnavailable
  | DeadlineExceeded.

(** The state of the process as far as the fallback policy is concerned:
    [failing = Some e] when the classifier, the calibration table or the
    request deadline is forced to fail with [e]. *)
Record Backend : Type := mkBackend {
  failing : option InfraError
}.

(** The fail-safe contract for a request served while [e] is forced: the
    verdict is STEP_UP, some flag of [details] is set, and the verdict is not
    PASS. *)
Definition fails_safe (e : InfraError) (request : ScoringRequest) : Prop :=
  exists (resp : ScoringResponse) (d : PyDictT) (flag : string),
    response_of (score request (mkBackend (Some e))) = Some resp /\
    result resp = STEP_UP /\
    details resp = Some d /\
    d !! flag = Some (PyBool true) /\
    result resp <> PASS.

(** The sparse-evidence contract: one event on a session the process has
    never seen (it knows the sessions [known], and [sid] is not among them)
    is answered STEP_UP. *)
Definition sparse_steps_up (known : gset string) (sid : string) (e : Event)
  : Prop :=
  sid ∉ known ->
  exists resp : ScoringResponse,
    response_of (score (mkScoringRequest sid [e]) known) = Some resp /\
    result resp = STEP_UP.

(** The closed interval [[0,1]] of binary64 values. *)
Definition in_unit_interval (x : float) : bool :=
  ((0 <=? x) && (x <=? 1))%float.

(** A calibration layer as a process may hold one: it gives a raw score of a
    model version its confidence, or fails. *)
Definition Calibration : Type := float -> string -> InfraError + float.

(** The calibrated-confidence contract for a request served by a process
    that holds the calibration layer [cal]: the verdict is one of the four,
    and the confidence is a value that [cal] gives to some raw score, within
    [[0,1]]. *)
Definition answers_calibrated (cal : Calibration) (request : ScoringRequest)
  : Prop :=
  exists (resp : ScoringResponse) (p_pass : float) (model_version : string),
    response_of (score request cal) = Some resp /\
    result resp ∈ [PASS; FAIL; REGENERATE; STEP_UP] /\
    cal p_pass model_version = inr (confidence resp) /\
    in_unit_interval (confidence resp) = true.

(** A process in which no calibration table is loaded, and one whose table
    gives every raw score the confidence 0.5. *)
Definition no_calibration : Calibration :=
  fun _ _ => inl CalibrationUnavailable.

Definition flat_calibration : Calibration :=
  fun _ _ => inr 0.5%float.

(** An event whose kind no engine recognises, stamped with NaN, carrying a
    payload of nested junk, next to one stamped before the epoch and one
    stamped at infinity. *)
Definition junk_events : list Event :=
  [ mkEvent "no-such-kind" nan
      (<["x" := PyList [PyNone; PyDict (<["y" := PyFloat neg_infinity]> ∅)]]> ∅);
    mkEvent "" (-1)%float ∅;
    mkEvent "pointer-move" infinity (<["" := PyStr ""]> ∅) ].

(** * The scoring engine of the specification

    [main.py] holds the endpoint alone.  The calibration layer, the decision
    policy and the session aggregator exist only in the specification; they
    are modelled here from its sections 3, 4.3, 4.5 and 4.6. *)

Module Engine.

(** Modelled from the spec: the configuration surface of section 6, which is
    missing from the source.  Only the options the modelled components read
    are kept. *)
Record Config : Type := mkConfig {
  pass_threshold : float;
  fail_threshold : float;
  regenerate_threshold : float;
  max_regenerate : nat;
  retention_cap : nat
}.

(** Modelled from the spec: the closed set of event kinds of a
    NormalizedEvent (section 3), missing from the source. *)
Inductive EventKind : Type :=
  | PointerMove
  | KeyPress
  | ChallengeInteraction
  | TimingBeacon.

(** Modelled from the spec: NormalizedEvent (section 3), missing from the
    source: a tagged event with its timestamp and validated payload. *)
Record NormalizedEvent : Type := mkNormalizedEvent {
  kind : EventKind;
  at_time : float;
  payload : PyDictT
}.

(** Modelled from the spec: the states of the decision policy's state machine
    (section 4.6), missing from the source. *)
Inductive PolicyState : Type :=
  | INITIAL
  | AWAITING_RETRY
  | ESCALATED
  | TERMINAL.

#[global] Instance PolicyState_eq_dec : EqDecision PolicyState.
Proof. solve_decision. Defined.

(** Modelled from the spec: Session (section 3), missing from the source: the
    bounded event history, the creation timestamp, the regenerate-count and
    the step-up flag, with the state of the policy machine keyed by it. *)
Record Session : Type := mkSession {
  history : list NormalizedEvent;
  created_at : float;
  regenerate_count : nat;
  step_up_flag : bool;
  policy_state : PolicyState
}.

(** Modelled from the spec: the session created on the first scoring request
    for an id (section 3): empty history, no retry, not stepped up, INITIAL. *)
Definition fresh_session (now : float) : Session :=
  {| history := [];
     created_at := now;
     regenerate_count := 0;
     step_up_flag := false;
     policy_state := INITIAL |}.

(** *** Calibration layer (section 4.5) *)

(** Modelled from the spec: the calibration table of one model version, "a
    piecewise mapping fit offline", missing from the source.  A segment
    [(edge, conf)] maps the raw scores from [edge] upward, as far as the next
    segment, to [conf]. *)
Definition Table : Type := list (float * float).

(** Modelled from the spec: the mapping read off a table as it stands.
    [below] is the confidence of the scores under the first remaining
    edge. *)
Fixpoint staircase (segments : Table) (below p : float) : float :=
  match segments with
  | [] => below
  | (edge, conf) :: rest =>
      if (edge <=? p)%float then staircase rest conf p else below
  end.

(** Modelled from the spec: what a fit leaves in a table: confidences that
    rise from segment to segment and stay within [[0,1]]. *)
Fixpoint rising (prev : float) (segments : Table) : bool :=
  match segments with
  | [] => true
  | (_, conf) :: rest =>
      ((prev <=? conf) && (conf <=? 1))%float && rising conf rest
  end.

(** Modelled from the spec: a table as a fit leaves it; the confidence under
    the first edge is 0. *)
Definition well_fit (table : Table) : bool := rising 0%float table.

(** Modelled from the spec: the greater of two confidences; a second one
    that is NaN is passed over. *)
Definition fmax (x y : float) : float :=
  if (x <=? y)%float then y else x.

(** Modelled from the spec: "confidence: float in [[0,1]]": a confidence
    above 1 is taken for 1. *)
Definition at_most_one (c : float) : float :=
  if (c <=? 1)%float then c else 1%float.

(** Modelled from the spec: the "monotonic transform" of section 4.5, as a
    piecewise mapping: a raw score that reaches a segment gets the
    confidence of the segment or the one it had, whichever is greater, so
    that a segment never lowers the confidence of the scores above it. *)
Fixpoint piecewise (segments : Table) (below p : float) : float :=
  match segments with
  | [] => below
  | (edge, conf) :: rest =>
      if (edge <=? p)%float then piecewise rest (fmax below conf) p
      else below
  end.

(** Modelled from the spec: [calibrate(p_pass, model_version)] of section
    4.5, missing from the source.  The table is looked up by model version;
    an unknown version fails with CalibrationUnavailable; the confidence is
    that of the piecewise mapping, within [[0,1]]. *)
Definition calibrate (tables : gmap string Table)
    (p_pass : float) (model_version : string) : InfraError + float :=
  match tables !! model_version with
  | None => inl CalibrationUnavailable
  | Some table => inr (at_most_one (piecewise table 0%float p_pass))
  end.

(** *** Decision policy (section 4.6) *)

(** Modelled from the spec: the ambiguous band of the REGENERATE rule,
    [fail_threshold < confidence < regenerate_threshold]. *)
Definition in_band (cfg : Config) (c : float) : bool :=
  ((fail_threshold cfg <? c) && (c <? regenerate_threshold cfg))%float.

(** Modelled from the spec: a confidence that reaches PASS or FAIL, the
    "extreme confidence" that wins over ambiguity. *)
Definition extreme (cfg : Config) (c : float) : bool :=
  ((pass_threshold cfg <=? c) || (c <=? fail_threshold cfg))%float.

(** Modelled from the spec: the thresholds in the order the rules and the
    end-to-end scenarios take them in (fail 0.2, regenerate 0.6, pass 0.9). *)
Definition ordered (cfg : Config) : bool :=
  ((fail_threshold cfg <=? regenerate_threshold cfg)
   && (regenerate_threshold cfg <=? pass_threshold cfg))%float.

(** Modelled from the spec: "session -> TERMINAL": the session in state
    [st], its other fields kept. *)
Definition enter (st : PolicyState) (s : Session) : Session :=
  {| history := history s;
     created_at := created_at s;
     regenerate_count := regenerate_count s;
     step_up_flag := step_up_flag s;
     policy_state := st |}.

(** Modelled from the spec: "increment regenerate_count, session ->
    AWAITING_RETRY". *)
Definition retried (s : Session) : Session :=
  {| history := history s;
     created_at := created_at s;
     regenerate_count := S (regenerate_count s);
     step_up_flag := step_up_flag s;
     policy_state := AWAITING_RETRY |}.

(** Modelled from the spec: "session -> ESCALATED", the step-up flag set. *)
Definition escalated (s : Session) : Session :=
  {| history := history s;
     created_at := created_at s;
     regenerate_count := regenerate_count s;
     step_up_flag := true;
     policy_state := ESCALATED |}.

(** Modelled from the spec: the transition rules of section 4.6, missing from
    the source, checked in the order the section fixes: PASS and FAIL first,
    then REGENERATE, then STEP_UP.  REGENERATE needs the band and a retry
    left, and neither trigger of the STEP_UP rule (sparse evidence, a session
    already escalated); every other confidence, NaN included, escalates. *)
Definition decide_verdict (cfg : Config) (s : Session) (c : float)
    (sparse : bool) : VerificationResult * Session :=
  if (pass_threshold cfg <=? c)%float then (PASS, enter TERMINAL s)
  else if (c <=? fail_threshold cfg)%float then (FAIL, enter TERMINAL s)
  else if in_band cfg c
          && (regenerate_count s <? max_regenerate cfg)%nat
          && negb (step_up_flag s)
          && negb sparse
       then (REGENERATE, retried s)
  else (STEP_UP, escalated s).

(** Modelled from the spec: "From TERMINAL, no further transitions occur":
    the machine of one session moves by [decide_verdict] until it is
    TERMINAL. *)
Definition policy_step (cfg : Config) (s : Session) (c : float) (sparse : bool)
  : option (VerificationResult * Session) :=
  match policy_state s with
  | TERMINAL => None
  | _ => Some (decide_verdict cfg s c sparse)
  end.

(** Modelled from the spec: one session lifetime: the verdicts the machine
    gives to successive (confidence, sparse-evidence) inputs. *)
Fixpoint lifetime (cfg : Config) (s : Session) (inputs : list (float * bool))
  : list VerificationResult * Session :=
  match inputs with
  | [] => ([], s)
  | (c, sparse) :: later =>
      match policy_step cfg s c sparse with
      | None => ([], s)
      | Some (verdict, s') =>
          let '(verdicts, final) := lifetime cfg s' later in
          (verdict :: verdicts, final)
      end
  end.

(** *** Session aggregator (section 4.3) *)

(** Modelled from the spec: [get_or_create(session_id)], missing from the
    source: an unknown id gets a fresh session. *)
Definition get_or_create (store : gmap string Session)
    (sid : string) (now : float) : Session :=
  default (fresh_session now) (store !! sid).

(** Modelled from the spec: the retention cap: the oldest events leave
    (FIFO) when the count with the new event would exceed the cap. *)
Definition evict (cap : nat) (events : list NormalizedEvent)
  : list NormalizedEvent :=
  drop (S (length events) - cap) events.

(** Modelled from the spec: the bounded window of a history: its most recent
    [cap] events, the oldest leaving first (FIFO). *)
Definition retain (cap : nat) (events : list NormalizedEvent)
  : list NormalizedEvent :=
  drop (length events - cap) events.

(** Modelled from the spec: the session with its event history replaced. *)
Definition with_history (events : list NormalizedEvent) (s : Session)
  : Session :=
  {| history := events;
     created_at := created_at s;
     regenerate_count := regenerate_count s;
     step_up_flag := step_up_flag s;
     policy_state := policy_state s |}.

(** Modelled from the spec: [append(session_id, NormalizedEvent)], missing
    from the source: the history with the new event, held to the retention
    cap; the updated session is stored and returned.  For a cap of at least
    one this is the eviction of the oldest events followed by the append
    ([append_evicts_first]). *)
Definition append (cfg : Config) (store : gmap string Session)
    (sid : string) (now : float) (e : NormalizedEvent)
  : Session * gmap string Session :=
  let s := get_or_create store sid now in
  let s' := with_history (retain (retention_cap cfg) (history s ++ [e])) s in
  (s', <[sid := s']> store).

(** Modelled from the spec: the policy applied to a scoring request.  A
    session that is TERMINAL is not moved: the request is a new attempt and a
    fresh session is derived for it. *)
Definition apply_policy (cfg : Config) (store : gmap string Session)
    (sid : string) (now c : float) (sparse : bool)
  : VerificationResult * gmap string Session :=
  let s := get_or_create store sid now in
  let '(verdict, s') :=
    match policy_step cfg s c sparse with
    | Some moved => moved
    | None => decide_verdict cfg (fresh_session now) c sparse
    end in
  (verdict, <[sid := s']> store).

(** Modelled from the spec: what reaches the aggregator over time: scoring
    calls, appends, and the removal of a session (idle TTL, or a terminal
    verdict with no further challenge expected). *)
Inductive Call : Type :=
  | Score (sid : string) (now c : float) (sparse : bool)
  | Append (sid : string) (now : float) (e : NormalizedEvent)
  | Remove (sid : string).

(** Modelled from the spec: the store after one call. *)
Definition step (cfg : Config) (store : gmap string Session) (call : Call)
  : gmap string Session :=
  match call with
  | Score sid now c sparse => snd (apply_policy cfg store sid now c sparse)
  | Append sid now e => snd (append cfg store sid now e)
  | Remove sid => delete sid store
  end.

(** Modelled from the spec: the store after a sequence of calls, applied in
    the order received. *)
Definition run (cfg : Config) (store : gmap string Session)
    (calls : list Call) : gmap string Session :=
  foldl (step cfg) store calls.

(** Modelled from the spec: "regenerate_count never exceeds max_regenerate",
    as an invariant of the store. *)
Definition counts_bounded (cfg : Config) (store : gmap string Session)
  : Prop :=
  map_Forall (fun _ s => regenerate_count s <= max_regenerate cfg) store.

(** Modelled from the spec: "history length never exceeds retention_cap", as
    an invariant of the store. *)
Definition histories_bounded (cfg : Config) (store : gmap string Session)
  : Prop :=
  map_Forall (fun _ s => length (history s) <= retention_cap cfg) store.

(** *** Values of the end-to-end scenarios *)

(** The configuration of the end-to-end scenarios: fail 0.2, regenerate 0.6,
    pass 0.9, two retries; three events retained. *)
Definition scenario_config : Config :=
  {| pass_threshold := 0.9;
     fail_threshold := 0.2;
     regenerate_threshold := 0.6;
     max_regenerate := 2;
     retention_cap := 3 |}.

(** The same, retaining no event. *)
Definition zero_cap_config : Config :=
  {| pass_threshold := 0.9;
     fail_threshold := 0.2;
     regenerate_threshold := 0.6;
     max_regenerate := 2;
     retention_cap := 0 |}.

Definition beacon (t : float) : NormalizedEvent :=
  mkNormalizedEvent TimingBeacon t ∅.

(** A session that reached PASS. *)
Definition passed_session : Session :=
  enter TERMINAL (fresh_session 0).

(** A session of scenario C whose history is full. *)
Definition full_session : Session :=
  with_history [beacon 1; beacon 2; beacon 3] (fresh_session 0).

(** A registry of two versions: a table of three segments as a fit leaves
    it, and one whose second segment falls below the first. *)
Definition sample_tables : gmap string Table :=
  <["v2" := [ (0.25, 0.9); (0.5, 0.1) ]%float]>
    {[ "v1" := [ (0.25, 0.125); (0.5, 0.5); (0.75, 0.875) ]%float ]}.

End Engine.

(** ** Lemmas on the endpoint *)

Lemma score_returns (W : Type) (w : W) (request : ScoringRequest) :
  score request w =
    (Returned
       {| result := PASS;
          confidence := 0.95%float;
          details :=
            Some (<["placeholder" := PyBool true]>
                   (<["events_received" := PyInt (len (events request))]> ∅)) |},
     w).
Proof. reflexivity. Qed.

Lemma details_lookup_placeholder (n : Z) :
  (<["placeholder" := PyBool true]>
     (<["events_received" := PyInt n]> (∅ : PyDictT))) !! "placeholder"
  = Some (PyBool true).
Proof. by rewrite lookup_insert_eq. Qed.

Lemma details_lookup_events_received (n : Z) :
  (<["placeholder" := PyBool true]>
     (<["events_received" := PyInt n]> (∅ : PyDictT))) !! "events_received"
  = Some (PyInt n).
Proof.
  rewrite lookup_insert_ne by done. by rewrite lookup_insert_eq.
Qed.

Lemma details_dom (n : Z) :
  dom (<["placeholder" := PyBool true]>
         (<["events_received" := PyInt n]> (∅ : PyDictT)))
  = ({["placeholder"; "events_received"]} : gset string).
Proof. rewrite !dom_insert_L, dom_empty_L. set_solver. Qed.

Lemma serve_returns (W : Type) (w : W) (requests : list ScoringRequest) :
  exists resps : list ScoringResponse,
    serve requests w = (Returned resps, w) /\
    Forall2 (fun request resp => score request w = (Returned resp, w))
            requests resps.
Proof.
  induction requests as [|request later IH].
  - exists []. split; [reflexivity | constructor].
  - destruct IH as (others & Hrun & Hall).
    eexists (_ :: others). split.
    + cbn [serve]. unfold bind at 1. rewrite score_returns.
      unfold bind at 1. rewrite Hrun. reflexivity.
    + constructor; [apply score_returns | exact Hall].
Qed.

(** Events of unknown kind, with timestamps that are NaN, negative or
    infinite and arbitrary payloads, are counted like any other. *)
Example score_junk_events :
  score (W := unit) (mkScoringRequest "" junk_events) tt
  = (Returned
       {| result := PASS;
          confidence := 0.95%float;
          details :=
            Some (<["placeholder" := PyBool true]>
                   (<["events_received" := PyInt 3]> ∅)) |},
     tt).
Proof. reflexivity. Qed.

(** ** Claims on the endpoint *)

(** C1 as stated fails: with ModelUnavailable forced, a request is answered
    PASS, so the fail-safe contract does not hold for it; nor does it with
    either of the other two errors forced. *)
Lemma score_ignores_model_unavailable :
  let request := mkScoringRequest "s-1" [] in
  response_of (score request (mkBackend (Some ModelUnavailable)))
  = Some {| result := PASS;
            confidence := 0.95%float;
            details :=
              Some (<["placeholder" := PyBool true]>
                     (<["events_received" := PyInt 0]> ∅)) |}
  /\ ~ fails_safe ModelUnavailable request
  /\ ~ fails_safe CalibrationUnavailable request
  /\ ~ fails_safe DeadlineExceeded request.
Proof.
  split; [reflexivity|].
  repeat split;
    intros (resp & d & flag & Hrun & Hverdict & _);
    cbn in Hrun; injection Hrun as <-; discriminate Hverdict.
Qed.

(** C1, amended: [score] consults no classifier, calibration table or
    deadline.  Whatever the state of those components, and so also while
    ModelUnavailable, CalibrationUnavailable or DeadlineExceeded is forced,
    every request is answered PASS with confidence 0.95 and never STEP_UP,
    the state is left as it was, and [details] holds the keys [placeholder]
    and [events_received] and no other, hence no fallback flag. *)
Theorem score_has_no_fallback :
  forall (backend : Backend) (request : ScoringRequest),
  exists (resp : ScoringResponse) (d : PyDictT),
    score request backend = (Returned resp, backend) /\
    result resp = PASS /\
    confidence resp = 0.95%float /\
    result resp <> STEP_UP /\
    details resp = Some d /\
    dom d = ({["placeholder"; "events_received"]} : gset string) /\
    d !! "fallback" = None.
Proof.
  intros backend request. do 2 eexists.
  split; [apply score_returns|]. cbn.
  split; [reflexivity|]. split; [reflexivity|]. split; [discriminate|].
  split; [reflexivity|]. split; [apply details_dom|]. reflexivity.
Qed.

(** C2: every request is answered PASS with confidence 0.95, and [details]
    holds [placeholder = true] and [events_received], the number of events of
    the request, whatever the events are. *)
Theorem score_placeholder_response :
  forall (W : Type) (w : W) (request : ScoringRequest),
  exists (resp : ScoringResponse) (d : PyDictT),
    score request w = (Returned resp, w) /\
    result resp = PASS /\
    confidence resp = 0.95%float /\
    details resp = Some d /\
    d !! "placeholder" = Some (PyBool true) /\
    d !! "events_received" = Some (PyInt (Z.of_nat (length (events request)))).
Proof.
  intros W w request. do 2 eexists.
  split; [apply score_returns|]. cbn.
  split; [reflexivity|]. split; [reflexivity|]. split; [reflexivity|].
  split; [apply details_lookup_placeholder|].
  apply details_lookup_events_received.
Qed.

(** C3 as stated fails: one event on a session the process has never seen is
    answered PASS, not STEP_UP. *)
Lemma score_one_event_is_pass :
  let e := mkEvent "pointer-move" 0.25%float ∅ in
  response_of (score (mkScoringRequest "fresh" [e]) (∅ : gset string))
  = Some {| result := PASS;
            confidence := 0.95%float;
            details :=
              Some (<["placeholder" := PyBool true]>
                     (<["events_received" := PyInt 1]> ∅)) |}
  /\ ~ sparse_steps_up ∅ "fresh" e.
Proof.
  split; [reflexivity|].
  intros Hclaim. destruct Hclaim as (resp & Hrun & Hverdict); [set_solver|].
  cbn in Hrun. injection Hrun as <-. discriminate Hverdict.
Qed.

(** C3, amended: a request with exactly one event, on a session seen before
    or not, is answered PASS with confidence 0.95 and
    [events_received = 1]; the history is not examined. *)
Theorem score_single_event :
  forall (W : Type) (w : W) (sid : string) (e : Event),
  exists (resp : ScoringResponse) (d : PyDictT),
    score (mkScoringRequest sid [e]) w = (Returned resp, w) /\
    result resp = PASS /\
    result resp <> STEP_UP /\
    confidence resp = 0.95%float /\
    details resp = Some d /\
    d !! "events_received" = Some (PyInt 1).
Proof.
  intros W w sid e. do 2 eexists.
  split; [apply score_returns|]. cbn.
  split; [reflexivity|]. split; [discriminate|].
  split; [reflexivity|]. split; [reflexivity|].
  apply details_lookup_events_received.
Qed.

(** C4 as stated fails: the confidence of a response is not a calibrated
    value.  In a process with no calibration table loaded, and in one whose
    table gives every raw score 0.5, a request is answered with confidence
    0.95, which the calibration layer of neither gives to any score. *)
Lemma score_confidence_not_calibrated :
  let request := mkScoringRequest "s-1" junk_events in
  (exists resp : ScoringResponse,
     response_of (score request no_calibration) = Some resp /\
     response_of (score request flat_calibration) = Some resp /\
     confidence resp = 0.95%float) /\
  ~ answers_calibrated no_calibration request /\
  ~ answers_calibrated flat_calibration request.
Proof.
  split; [eexists; repeat split|]. split.
  - intros (resp & p & v & _ & _ & Hcal & _). discriminate Hcal.
  - intros (resp & p & v & Hrun & _ & Hcal & _).
    cbn in Hrun. injection Hrun as <-. cbn in Hcal.
    apply (f_equal (fun r : InfraError + float =>
                      match r with
                      | inr c => (c <? 0.95)%float
                      | inl _ => false
                      end)) in Hcal.
    discriminate Hcal.
Qed.

(** C4, amended: the verdict of every response is one of PASS, FAIL,
    REGENERATE and STEP_UP (it is PASS), on the wire one of these four
    strings, and its confidence is the constant 0.95, which lies in the
    closed interval [[0,1]]; the confidence is not calibrated: the response
    is the same whatever calibration layer the process holds. *)
Theorem score_verdict_and_confidence_range :
  forall (W : Type) (w : W) (request : ScoringRequest),
  exists resp : ScoringResponse,
    score request w = (Returned resp, w) /\
    result resp = PASS /\
    result resp ∈ [PASS; FAIL; REGENERATE; STEP_UP] /\
    VerificationResult_value (result resp)
      ∈ ["PASS"; "FAIL"; "REGENERATE"; "STEP_UP"] /\
    confidence resp = 0.95%float /\
    in_unit_interval (confidence resp) = true /\
    (0 <=? confidence resp)%float = true /\
    (confidence resp <=? 1)%float = true /\
    (forall cal : Calibration,
       score request cal = (Returned resp, cal)).
Proof.
  intros W w request. eexists.
  split; [apply score_returns|]. cbn.
  split; [reflexivity|]. split; [set_solver|]. split; [set_solver|].
  split; [reflexivity|]. split; [reflexivity|]. split; [reflexivity|].
  split; [reflexivity|]. intros cal. apply score_returns.
Qed.

(** C5: two calls of [score] made in identical state on identical requests
    return the same confidence and the same result; each leaves the state as
    it found it, so the second of two successive calls meets the state of the
    first. *)
Theorem score_deterministic :
  forall (W : Type) (w1 w2 : W) (r1 r2 : ScoringRequest),
    w1 = w2 ->
    session_id r1 = session_id r2 ->
    events r1 = events r2 ->
    exists a b : ScoringResponse,
      score r1 w1 = (Returned a, w1) /\
      score r2 w2 = (Returned b, w2) /\
      confidence a = confidence b /\
      result a = result b /\
      serve [r1; r2] w1 = (Returned [a; b], w1).
Proof.
  intros W w1 w2 r1 r2 Hstate Hsid Hevents. subst w2.
  do 2 eexists.
  split; [apply score_returns|]. split; [apply score_returns|].
  cbn. repeat split.
Qed.

Lemma score_deterministic_witness :
  let r := mkScoringRequest "s-7" junk_events in
  exists a b : ScoringResponse,
    score r (∅ : gset string) = (Returned a, ∅) /\
    score r (∅ : gset string) = (Returned b, ∅) /\
    confidence a = confidence b /\
    result a = result b /\
    serve [r; r] (∅ : gset string) = (Returned [a; b], ∅).
Proof.
  exact (score_deterministic (gset string) ∅ ∅
           (mkScoringRequest "s-7" junk_events)
           (mkScoringRequest "s-7" junk_events)
           eq_refl eq_refl eq_refl).
Defined.

(** C10: [score] returns for every request and raises for none, whatever the
    type strings, timestamps and payloads of its events; it leaves the
    process state untouched, and its response is the same in every state and
    after every sequence of earlier requests. *)
Theorem score_total_and_stateless :
  forall (W : Type) (w : W) (request : ScoringRequest),
  exists resp : ScoringResponse,
    score request w = (Returned resp, w) /\
    (forall w' : W, score request w' = (Returned resp, w')) /\
    (forall earlier : list ScoringRequest,
       exists before : list ScoringResponse,
         serve (earlier ++ [request]) w = (Returned (before ++ [resp]), w)).
Proof.
  intros W w request. eexists.
  split; [apply score_returns|].
  split; [intros w'; apply score_returns|].
  intros earlier.
  destruct (serve_returns W w (earlier ++ [request])) as (resps & Hrun & Hall).
  apply Forall2_app_inv_l in Hall as (before & lst & _ & Hlast & ->).
  inversion Hlast as [|? resp' ? rest Hscore Hrest]; subst.
  inversion Hrest; subst.
  rewrite score_returns in Hscore. injection Hscore as <-.
  exists before. exact Hrun.
Qed.

(** * The order of binary64 values

    The comparisons of primitive floats are specified by [SFleb] and [SFltb]
    on [spec_float]; what the engine needs of them is that they order the
    values that are not NaN. *)

Section FloatOrder.

Ltac cmp_cases :=
  repeat match goal with
    | |- context [Z.compare ?a ?b] => destruct (Z.compare_spec a b)
    | |- context [Pos.compare_cont Eq ?a ?b] =>
        change (Pos.compare_cont Eq a b) with (Pos.compare a b);
        destruct (Pos.compare_spec a b)
    end.

Ltac sf_order :=
  unfold SFleb, SFltb, SFcompare;
  repeat match goal with
    | x : spec_float |- _ => destruct x as [[]|[]| |[] ? ?]
    end;
  simpl; try congruence; cmp_cases; simpl; intros; subst;
  try congruence; try lia.

Lemma SFleb_trans (a b c : spec_float) :
  SFleb a b = true -> SFleb b c = true -> SFleb a c = true.
Proof. sf_order. Qed.

Lemma SFleb_ltb_trans (a b c : spec_float) :
  SFleb a b = true -> SFltb b c = true -> SFleb a c = true.
Proof. sf_order. Qed.

Lemma SFltb_not_leb (a b : spec_float) :
  SFltb a b = true -> SFleb b a = false.
Proof. sf_order. Qed.

Lemma SFleb_refl_r (a b : spec_float) :
  SFleb a b = true -> SFleb b b = true.
Proof. sf_order. Qed.

Lemma leb_trans (x y z : float) :
  (x <=? y)%float = true -> (y <=? z)%float = true -> (x <=? z)%float = true.
Proof. rewrite !leb_spec. apply SFleb_trans. Qed.

Lemma leb_ltb_trans (x y z : float) :
  (x <=? y)%float = true -> (y <? z)%float = true -> (x <=? z)%float = true.
Proof. rewrite !leb_spec, ltb_spec. apply SFleb_ltb_trans. Qed.

Lemma ltb_not_leb (x y : float) :
  (x <? y)%float = true -> (y <=? x)%float = false.
Proof. rewrite leb_spec, ltb_spec. apply SFltb_not_leb. Qed.

Lemma leb_refl_r (x y : float) :
  (x <=? y)%float = true -> (y <=? y)%float = true.
Proof. rewrite !leb_spec. apply SFleb_refl_r. Qed.

Lemma SFleb_total (a b : spec_float) :
  SFleb a a = true -> SFleb b b = true ->
  SFleb a b = false -> SFleb b a = true.
Proof. sf_order. Qed.

(** Two values that are not NaN are comparable. *)
Lemma leb_total (x y : float) :
  (x <=? x)%float = true -> (y <=? y)%float = true ->
  (x <=? y)%float = false -> (y <=? x)%float = true.
Proof. rewrite !leb_spec. apply SFleb_total. Qed.

End FloatOrder.

(** * The calibration layer *)

Section CalibrationFacts.

Import Engine.

Lemma fmax_above (x y : float) :
  (x <=? x)%float = true -> (x <=? fmax x y)%float = true.
Proof. intros Hx. unfold fmax. by destruct (x <=? y)%float eqn:Hxy. Qed.

Lemma fmax_refl (x y : float) :
  (x <=? x)%float = true -> (fmax x y <=? fmax x y)%float = true.
Proof.
  intros Hx. unfold fmax. destruct (x <=? y)%float eqn:Hxy; [|exact Hx].
  exact (leb_refl_r _ _ Hxy).
Qed.

(** The greater of two confidences rises with the first. *)
Lemma fmax_monotone (a b c : float) :
  (a <=? b)%float = true -> (fmax a c <=? fmax b c)%float = true.
Proof.
  intros Hab. unfold fmax.
  destruct (a <=? c)%float eqn:Hac, (b <=? c)%float eqn:Hbc.
  - exact (leb_refl_r _ _ Hac).
  - apply leb_total; [exact (leb_refl_r _ _ Hab) | | exact Hbc].
    exact (leb_refl_r _ _ Hac).
  - exact (leb_trans _ _ _ Hab Hbc).
  - exact Hab.
Qed.

Lemma at_most_one_monotone (a b : float) :
  (a <=? b)%float = true -> (at_most_one a <=? at_most_one b)%float = true.
Proof.
  intros Hab. unfold at_most_one.
  destruct (b <=? 1)%float eqn:Hb.
  - by rewrite (leb_trans _ _ _ Hab Hb).
  - by destruct (a <=? 1)%float eqn:Ha.
Qed.

Lemma at_most_one_range (c : float) :
  (0 <=? c)%float = true -> in_unit_interval (at_most_one c) = true.
Proof.
  intros Hc. unfold in_unit_interval, at_most_one.
  destruct (c <=? 1)%float eqn:Hone; [|reflexivity].
  by rewrite Hc, Hone.
Qed.

(** No segment lowers the confidence a score has. *)
Lemma piecewise_above (segments : Table) (below p : float) :
  (below <=? below)%float = true ->
  (below <=? piecewise segments below p)%float = true.
Proof.
  revert below. induction segments as [|[edge conf] rest IH];
    intros below Hrefl; cbn [piecewise]; [exact Hrefl|].
  destruct (edge <=? p)%float; [|exact Hrefl].
  apply leb_trans with (fmax below conf).
  - by apply fmax_above.
  - by apply IH, fmax_refl.
Qed.

(** The mapping is monotone in the raw score and in the confidence it starts
    from: a higher score reaches every segment the lower one reaches. *)
Lemma piecewise_monotone (segments : Table) (p_a p_b : float) :
  (p_b <? p_a)%float = true ->
  forall below_a below_b : float,
    (below_b <=? below_a)%float = true ->
    (piecewise segments below_b p_b <=? piecewise segments below_a p_a)%float
    = true.
Proof.
  intros Hlt. induction segments as [|[edge conf] rest IH];
    intros below_a below_b Hle; cbn [piecewise]; [exact Hle|].
  destruct (edge <=? p_b)%float eqn:Hb.
  - rewrite (leb_ltb_trans _ _ _ Hb Hlt). by apply IH, fmax_monotone.
  - destruct (edge <=? p_a)%float; [|exact Hle].
    pose proof (leb_refl_r _ _ Hle) as Hrefl.
    apply leb_trans with below_a; [exact Hle|].
    apply leb_trans with (fmax below_a conf); [by apply fmax_above|].
    by apply piecewise_above, fmax_refl.
Qed.

(** On a table as a fit leaves it, with confidences that rise within
    [[0,1]], the mapping is the table read as it stands. *)
Lemma piecewise_well_fit (segments : Table) (below p : float) :
  rising below segments = true ->
  piecewise segments below p = staircase segments below p.
Proof.
  revert below. induction segments as [|[edge conf] rest IH];
    intros below Hrise; cbn [piecewise staircase]; [reflexivity|].
  cbn [rising] in Hrise.
  apply andb_true_iff in Hrise as [Hstep Hrest].
  apply andb_true_iff in Hstep as [Hup _].
  destruct (edge <=? p)%float; [|reflexivity].
  unfold fmax. rewrite Hup. by apply IH.
Qed.

Lemma staircase_at_most_one (segments : Table) (below p : float) :
  (below <=? 1)%float = true ->
  rising below segments = true ->
  (staircase segments below p <=? 1)%float = true.
Proof.
  revert below. induction segments as [|[edge conf] rest IH];
    intros below Hone Hrise; cbn [staircase]; [exact Hone|].
  cbn [rising] in Hrise.
  apply andb_true_iff in Hrise as [Hstep Hrest].
  apply andb_true_iff in Hstep as [_ Hcap].
  destruct (edge <=? p)%float; [|exact Hone].
  by apply IH.
Qed.

Lemma calibrate_well_fit (tables : gmap string Table) (v : string)
    (table : Table) (p : float) :
  tables !! v = Some table ->
  well_fit table = true ->
  calibrate tables p v = inr (staircase table 0%float p).
Proof.
  intros Hlook Hfit. unfold calibrate. rewrite Hlook. f_equal.
  rewrite (piecewise_well_fit _ _ _ Hfit). unfold at_most_one.
  by rewrite (staircase_at_most_one table 0%float p eq_refl Hfit).
Qed.

(** The calibrated confidence lies in [[0,1]], whatever the table. *)
Lemma calibrate_in_unit_interval
    (tables : gmap string Table) (v : string) (p c : float) :
  calibrate tables p v = inr c -> in_unit_interval c = true.
Proof.
  unfold calibrate.
  destruct (tables !! v) as [table|] eqn:Hlook; [|discriminate].
  intros [= <-]. apply at_most_one_range.
  by apply piecewise_above.
Qed.

(** C6: [calibrate] is monotonic non-decreasing in [p_pass].  For every
    registry of tables, every model version and raw scores [p_a > p_b],
    either the version is unknown and both calls fail with
    CalibrationUnavailable, or both return and the confidence of [p_a] is at
    least that of [p_b]. *)
Theorem calibrate_monotone :
  forall (tables : gmap string Table) (model_version : string)
         (p_a p_b : float),
    (p_b <? p_a)%float = true ->
    match calibrate tables p_a model_version,
          calibrate tables p_b model_version with
    | inr c_a, inr c_b => (c_b <=? c_a)%float = true
    | inl e_a, inl e_b =>
        e_a = CalibrationUnavailable /\ e_b = CalibrationUnavailable
    | _, _ => False
    end.
Proof.
  intros tables v p_a p_b Hlt. unfold calibrate.
  destruct (tables !! v) as [table|] eqn:Hlook; [|split; reflexivity].
  apply at_most_one_monotone, piecewise_monotone; [exact Hlt | reflexivity].
Qed.

Lemma calibrate_monotone_witness :
  match calibrate sample_tables 0.6%float "v2",
        calibrate sample_tables 0.3%float "v2" with
  | inr c_a, inr c_b => (c_b <=? c_a)%float = true
  | inl e_a, inl e_b =>
      e_a = CalibrationUnavailable /\ e_b = CalibrationUnavailable
  | _, _ => False
  end.
Proof.
  apply (calibrate_monotone sample_tables "v2" 0.6%float 0.3%float).
  reflexivity.
Defined.

End CalibrationFacts.

(** * The decision policy *)

Section PolicyFacts.

Import Engine.

Variable cfg : Config.

(** [decide_verdict] has four outcomes, taken in the order of its checks. *)
Lemma decide_cases (s : Session) (c : float) (sparse : bool) :
  (decide_verdict cfg s c sparse = (PASS, enter TERMINAL s) /\
   extreme cfg c = true) \/
  (decide_verdict cfg s c sparse = (FAIL, enter TERMINAL s) /\
   extreme cfg c = true) \/
  (decide_verdict cfg s c sparse = (REGENERATE, retried s) /\
   regenerate_count s < max_regenerate cfg /\
   step_up_flag s = false /\ sparse = false /\
   in_band cfg c = true /\ extreme cfg c = false) \/
  (decide_verdict cfg s c sparse = (STEP_UP, escalated s) /\
   extreme cfg c = false).
Proof.
  unfold decide_verdict, extreme.
  destruct (pass_threshold cfg <=? c)%float; [by left|].
  destruct (c <=? fail_threshold cfg)%float; [by right; left|].
  cbn [orb].
  destruct (in_band cfg c) eqn:Hband; cbn [andb]; [|by right; right; right].
  destruct (regenerate_count s <? max_regenerate cfg)%nat eqn:Hleft;
    cbn [andb]; [|by right; right; right].
  apply Nat.ltb_lt in Hleft.
  destruct (step_up_flag s) eqn:Hflag; cbn [negb andb];
    [by right; right; right|].
  destruct sparse; cbn [negb]; [by right; right; right|].
  right; right; left. by repeat split.
Qed.

(** The machine is TERMINAL after a verdict exactly when the verdict is PASS
    or FAIL. *)
Lemma decide_terminal (s : Session) (c : float) (sparse : bool) :
  policy_state (snd (decide_verdict cfg s c sparse)) = TERMINAL <->
  fst (decide_verdict cfg s c sparse) = PASS \/
  fst (decide_verdict cfg s c sparse) = FAIL.
Proof.
  destruct (decide_cases s c sparse) as [[H _]|[[H _]|[[H _]|[H _]]]];
    rewrite H; cbn; split; intros Hx; try discriminate; auto;
    destruct Hx; discriminate.
Qed.

(** A verdict keeps the regenerate-count within the limit. *)
Lemma decide_count (s : Session) (c : float) (sparse : bool) :
  regenerate_count s <= max_regenerate cfg ->
  regenerate_count (snd (decide_verdict cfg s c sparse)) <= max_regenerate cfg.
Proof.
  intros Hle.
  destruct (decide_cases s c sparse)
    as [[H _]|[[H _]|[[H [Hlt _]]|[H _]]]];
    rewrite H; cbn; lia.
Qed.

(** With the thresholds in order, a confidence of the band is not extreme. *)
Lemma band_not_extreme (c : float) :
  ordered cfg = true -> in_band cfg c = true -> extreme cfg c = false.
Proof.
  unfold ordered, in_band, extreme. intros Hord Hband.
  apply andb_true_iff in Hord as [_ Hrp].
  apply andb_true_iff in Hband as [Hfc Hcr].
  apply orb_false_iff. split.
  - destruct (pass_threshold cfg <=? c)%float eqn:Hpc; [|reflexivity].
    rewrite <- (ltb_not_leb _ _ Hcr). symmetry.
    exact (leb_trans _ _ _ Hrp Hpc).
  - exact (ltb_not_leb _ _ Hfc).
Qed.

Lemma policy_step_terminal (s : Session) (c : float) (sparse : bool) :
  policy_state s = TERMINAL -> policy_step cfg s c sparse = None.
Proof. unfold policy_step. by intros ->. Qed.

Lemma policy_step_live (s : Session) (c : float) (sparse : bool) :
  policy_state s <> TERMINAL ->
  policy_step cfg s c sparse = Some (decide_verdict cfg s c sparse).
Proof. unfold policy_step. by destruct (policy_state s). Qed.

Lemma lifetime_terminal (s : Session) (inputs : list (float * bool)) :
  policy_state s = TERMINAL -> lifetime cfg s inputs = ([], s).
Proof.
  intros Hterm. destruct inputs as [|[c sparse] later]; [reflexivity|].
  cbn [lifetime]. by rewrite policy_step_terminal.
Qed.

(** One step of a lifetime. *)
Lemma lifetime_live (s : Session) (c : float) (sparse : bool)
    (later : list (float * bool)) :
  policy_state s <> TERMINAL ->
  lifetime cfg s ((c, sparse) :: later) =
    (fst (decide_verdict cfg s c sparse)
       :: fst (lifetime cfg (snd (decide_verdict cfg s c sparse)) later),
     snd (lifetime cfg (snd (decide_verdict cfg s c sparse)) later)).
Proof.
  intros Hlive. cbn [lifetime]. rewrite policy_step_live by exact Hlive.
  destruct (decide_verdict cfg s c sparse) as [verdict s']. cbn [fst snd].
  by destruct (lifetime cfg s' later).
Qed.

(** In the verdicts of one lifetime nothing follows a PASS or a FAIL, and
    the session is left TERMINAL. *)
Lemma lifetime_ends_at_terminal (inputs : list (float * bool)) :
  forall (s : Session) (pre post : list VerificationResult)
         (v : VerificationResult),
    fst (lifetime cfg s inputs) = pre ++ v :: post ->
    v = PASS \/ v = FAIL ->
    post = [] /\ policy_state (snd (lifetime cfg s inputs)) = TERMINAL.
Proof.
  induction inputs as [|[c sparse] later IH]; intros s pre post v Hsplit Hv.
  - cbn in Hsplit. by destruct pre.
  - destruct (decide (policy_state s = TERMINAL)) as [Hterm|Hlive].
    { rewrite lifetime_terminal in Hsplit by exact Hterm.
      cbn in Hsplit. by destruct pre. }
    rewrite lifetime_live in Hsplit |- * by exact Hlive.
    cbn [fst snd] in Hsplit |- *.
    destruct pre as [|v0 pre]; cbn in Hsplit.
    + injection Hsplit as Hhead Htail.
      assert (policy_state (snd (decide_verdict cfg s c sparse)) = TERMINAL)
        as Hnow
        by (apply decide_terminal; rewrite Hhead; exact Hv).
      rewrite lifetime_terminal in Htail |- * by exact Hnow.
      cbn in Htail |- *. by split.
    + injection Hsplit as _ Htail. exact (IH _ _ _ _ Htail Hv).
Qed.

(** A lifetime keeps the regenerate-count within the limit. *)
Lemma lifetime_count (inputs : list (float * bool)) :
  forall s : Session,
    regenerate_count s <= max_regenerate cfg ->
    regenerate_count (snd (lifetime cfg s inputs)) <= max_regenerate cfg.
Proof.
  induction inputs as [|[c sparse] later IH]; intros s Hle; [exact Hle|].
  destruct (decide (policy_state s = TERMINAL)) as [Hterm|Hlive].
  - by rewrite lifetime_terminal.
  - rewrite lifetime_live by exact Hlive. cbn [snd].
    apply IH, decide_count, Hle.
Qed.

End PolicyFacts.

(** * The session aggregator and the policy over the session store *)

Section StoreFacts.

Import Engine.

Variable cfg : Config.

Lemma get_or_create_known (store : gmap string Session) (sid : string)
    (now : float) (s : Session) :
  store !! sid = Some s -> get_or_create store sid now = s.
Proof. unfold get_or_create. by intros ->. Qed.

Lemma get_or_create_unknown (store : gmap string Session) (sid : string)
    (now : float) :
  store !! sid = None -> get_or_create store sid now = fresh_session now.
Proof. unfold get_or_create. by intros ->. Qed.

(** A request on a TERMINAL session is decided on a fresh session. *)
Lemma apply_policy_terminal (store : gmap string Session) (sid : string)
    (s : Session) (now c : float) (sparse : bool) :
  store !! sid = Some s ->
  policy_state s = TERMINAL ->
  apply_policy cfg store sid now c sparse =
    (fst (decide_verdict cfg (fresh_session now) c sparse),
     <[sid := snd (decide_verdict cfg (fresh_session now) c sparse)]> store).
Proof.
  intros Hlook Hterm. unfold apply_policy.
  rewrite (get_or_create_known _ _ _ _ Hlook).
  rewrite policy_step_terminal by exact Hterm.
  by destruct (decide_verdict cfg (fresh_session now) c sparse).
Qed.

(** So is a request on an unknown session. *)
Lemma apply_policy_unknown (store : gmap string Session) (sid : string)
    (now c : float) (sparse : bool) :
  store !! sid = None ->
  apply_policy cfg store sid now c sparse =
    (fst (decide_verdict cfg (fresh_session now) c sparse),
     <[sid := snd (decide_verdict cfg (fresh_session now) c sparse)]> store).
Proof.
  intros Hlook. unfold apply_policy.
  rewrite (get_or_create_unknown _ _ _ Hlook).
  rewrite policy_step_live by discriminate.
  by destruct (decide_verdict cfg (fresh_session now) c sparse).
Qed.

(** Every request is decided on some session whose count is within the
    limit when those of the store are. *)
Lemma apply_policy_decides (store : gmap string Session) (sid : string)
    (now c : float) (sparse : bool) :
  exists s : Session,
    apply_policy cfg store sid now c sparse =
      (fst (decide_verdict cfg s c sparse),
       <[sid := snd (decide_verdict cfg s c sparse)]> store) /\
    (s = fresh_session now \/ store !! sid = Some s).
Proof.
  destruct (store !! sid) as [s|] eqn:Hlook.
  - destruct (decide (policy_state s = TERMINAL)) as [Hterm|Hlive].
    + exists (fresh_session now). split; [|by left].
      exact (apply_policy_terminal _ _ _ _ _ _ Hlook Hterm).
    + exists s. split; [|by right].
      unfold apply_policy. rewrite (get_or_create_known _ _ _ _ Hlook).
      rewrite policy_step_live by exact Hlive.
      by destruct (decide_verdict cfg s c sparse).
  - exists (fresh_session now). split; [|by left].
    exact (apply_policy_unknown _ _ _ _ _ Hlook).
Qed.


Lemma step_counts_bounded (store : gmap string Session) (call : Call) :
  counts_bounded cfg store -> counts_bounded cfg (step cfg store call).
Proof.
  intros Hinv. destruct call as [sid now c sparse|sid now e|sid]; cbn [step].
  - destruct (apply_policy_decides store sid now c sparse)
      as (s & -> & Hs). cbn [snd].
    apply map_Forall_insert_2; [|exact Hinv].
    apply decide_count.
    destruct Hs as [->|Hlook]; [cbn; lia | exact (Hinv _ _ Hlook)].
  - cbn. apply map_Forall_insert_2; [|exact Hinv]. cbn.
    unfold get_or_create.
    destruct (store !! sid) as [s|] eqn:Hlook; cbn;
      [exact (Hinv _ _ Hlook) | lia].
  - by apply map_Forall_delete.
Qed.

Lemma run_counts_bounded (calls : list Call) :
  forall store : gmap string Session,
    counts_bounded cfg store -> counts_bounded cfg (run cfg store calls).
Proof.
  unfold run. induction calls as [|call later IH]; intros store Hinv;
    [exact Hinv|].
  cbn [foldl]. apply IH, step_counts_bounded, Hinv.
Qed.

(** Eviction leaves room for one event. *)
Lemma evict_length (cap : nat) (events : list NormalizedEvent) :
  1 <= cap -> length (evict cap events) < cap.
Proof. intros Hcap. unfold evict. rewrite length_drop. lia. Qed.

(** It drops nothing from a history that has room. *)
Lemma evict_room (cap : nat) (events : list NormalizedEvent) :
  length events < cap -> evict cap events = events.
Proof.
  intros Hroom. unfold evict.
  replace (S (length events) - cap) with 0 by lia. reflexivity.
Qed.

(** The window holds the cap, or the whole history when that is shorter. *)
Lemma retain_length (cap : nat) (events : list NormalizedEvent) :
  length (retain cap events) = min (length events) cap.
Proof. unfold retain. rewrite length_drop. lia. Qed.

(** The window is the end of the history: what it leaves out is older. *)
Lemma retain_suffix (cap : nat) (events : list NormalizedEvent) :
  events = take (length events - cap) events ++ retain cap events.
Proof. unfold retain. by rewrite take_drop. Qed.

(** For a cap of at least one, holding the history with the new event to the
    cap is evicting the oldest events and then appending the new one. *)
Lemma retain_evicts_first (cap : nat) (events : list NormalizedEvent)
    (e : NormalizedEvent) :
  1 <= cap -> retain cap (events ++ [e]) = evict cap events ++ [e].
Proof.
  intros Hcap. unfold retain, evict. rewrite length_app. cbn [length].
  replace (length events + 1 - cap) with (S (length events) - cap) by lia.
  apply drop_app_le. lia.
Qed.

Lemma append_history (store : gmap string Session) (sid : string)
    (now : float) (e : NormalizedEvent) :
  history (fst (append cfg store sid now e)) =
    retain (retention_cap cfg) (history (get_or_create store sid now) ++ [e]).
Proof. reflexivity. Qed.

Lemma append_evicts_first (store : gmap string Session) (sid : string)
    (now : float) (e : NormalizedEvent) :
  1 <= retention_cap cfg ->
  history (fst (append cfg store sid now e)) =
    evict (retention_cap cfg) (history (get_or_create store sid now)) ++ [e].
Proof. intros Hcap. rewrite append_history. by apply retain_evicts_first. Qed.

Lemma step_histories_bounded (store : gmap string Session) (call : Call) :
  histories_bounded cfg store ->
  histories_bounded cfg (step cfg store call).
Proof.
  intros Hinv.
  destruct call as [sid now c sparse|sid now e|sid]; cbn [step].
  - destruct (apply_policy_decides store sid now c sparse)
      as (s & -> & Hs). cbn [snd].
    apply map_Forall_insert_2; [|exact Hinv].
    assert (length (history s) <= retention_cap cfg) as Hlen
      by (destruct Hs as [->|Hlook]; [cbn; lia | exact (Hinv _ _ Hlook)]).
    destruct (decide_cases cfg s c sparse)
      as [[H _]|[[H _]|[[H _]|[H _]]]];
      rewrite H; exact Hlen.
  - cbn. apply map_Forall_insert_2; [|exact Hinv]. cbn.
    rewrite retain_length. lia.
  - by apply map_Forall_delete.
Qed.

Lemma run_histories_bounded (calls : list Call) :
  forall store : gmap string Session,
    histories_bounded cfg store ->
    histories_bounded cfg (run cfg store calls).
Proof.
  unfold run.
  induction calls as [|call later IH]; intros store Hinv; [exact Hinv|].
  cbn [foldl]. apply IH, step_histories_bounded; assumption.
Qed.

End StoreFacts.

(** * Claims on the engine *)

Section EngineClaims.

Import Engine.


(** C7: TERMINAL is final within a session lifetime.  The machine has no
    transition from TERMINAL; it is TERMINAL after a verdict exactly when the
    verdict is PASS or FAIL; in the verdict sequence of one lifetime nothing
    follows a PASS or a FAIL; and a scoring request for a session that is
    TERMINAL is decided on a fresh session, as it is for an unknown id, with
    the verdict the current confidence gives and not the stored one. *)
Theorem terminal_is_final :
  forall cfg : Config,
    (forall (s : Session) (c : float) (sparse : bool),
       policy_state s = TERMINAL -> policy_step cfg s c sparse = None) /\
    (forall (s : Session) (c : float) (sparse : bool)
            (v : VerificationResult) (s' : Session),
       policy_step cfg s c sparse = Some (v, s') ->
       (policy_state s' = TERMINAL <-> v = PASS \/ v = FAIL)) /\
    (forall (s : Session) (inputs : list (float * bool))
            (pre post : list VerificationResult) (v : VerificationResult),
       fst (lifetime cfg s inputs) = pre ++ v :: post ->
       v = PASS \/ v = FAIL ->
       post = [] /\ policy_state (snd (lifetime cfg s inputs)) = TERMINAL) /\
    (forall (store : gmap string Session) (sid : string) (s : Session)
            (now c : float) (sparse : bool),
       store !! sid = Some s ->
       policy_state s = TERMINAL ->
       apply_policy cfg store sid now c sparse
         = apply_policy cfg (delete sid store) sid now c sparse /\
       fst (apply_policy cfg store sid now c sparse)
         = fst (decide_verdict cfg (fresh_session now) c sparse) /\
       snd (apply_policy cfg store sid now c sparse) !! sid
         = Some (snd (decide_verdict cfg (fresh_session now) c sparse))).
Proof.
  intros cfg. split; [|split; [|split]].
  - apply policy_step_terminal.
  - intros s c sparse v s' Hstep. unfold policy_step in Hstep.
    pose proof (decide_terminal cfg s c sparse) as Hiff.
    destruct (policy_state s); try discriminate;
      injection Hstep as Hd; rewrite Hd in Hiff; exact Hiff.
  - intros s inputs pre post v. apply lifetime_ends_at_terminal.
  - intros store sid s now c sparse Hlook Hterm.
    rewrite (apply_policy_terminal cfg _ _ _ _ _ _ Hlook Hterm).
    rewrite (apply_policy_unknown cfg (delete sid store))
      by apply lookup_delete_eq.
    cbn [fst snd]. rewrite insert_delete_eq.
    split; [reflexivity|]. split; [reflexivity|].
    apply lookup_insert_eq.
Qed.

Lemma terminal_is_final_witness :
  policy_step scenario_config passed_session 0.5 false = None /\
  (policy_state (escalated (fresh_session 0)) = TERMINAL <->
   STEP_UP = PASS \/ STEP_UP = FAIL) /\
  ([] = ([] : list VerificationResult) /\
   policy_state
     (snd (lifetime scenario_config (fresh_session 0)
             [(0.4, false); (0.97, false); (0.1, false)]%float))
   = TERMINAL) /\
  fst (apply_policy scenario_config {["s-1" := passed_session]}
         "s-1" 8 0.1 false) = FAIL.
Proof.
  destruct (terminal_is_final scenario_config) as (Hnone & Hiff & Hlast & Hnew).
  split; [|split; [|split]].
  - apply Hnone. reflexivity.
  - apply (Hiff (fresh_session 0) 0.7%float false). reflexivity.
  - apply (Hlast (fresh_session 0)
             [(0.4, false); (0.97, false); (0.1, false)]%float
             [REGENERATE] [] PASS).
    + reflexivity.
    + left. reflexivity.
  - destruct (Hnew {["s-1" := passed_session]} "s-1" passed_session
                8%float 0.1%float false) as (_ & Hverdict & _).
    + apply lookup_singleton_eq.
    + reflexivity.
    + rewrite Hverdict. reflexivity.
Defined.

(** C8: the regenerate-count of a session never exceeds [max_regenerate]:
    it holds of every session of the store after every sequence of scoring
    calls, appends and removals, and along every lifetime.  Once the limit is
    exhausted no verdict is REGENERATE, and a confidence that is not extreme,
    in particular one of the ambiguous band, yields STEP_UP. *)
Theorem regenerate_count_bounded :
  forall cfg : Config,
    (forall calls : list Call,
       map_Forall (fun _ s => regenerate_count s <= max_regenerate cfg)
                  (run cfg ∅ calls)) /\
    (forall (s : Session) (inputs : list (float * bool)),
       regenerate_count s <= max_regenerate cfg ->
       regenerate_count (snd (lifetime cfg s inputs)) <= max_regenerate cfg) /\
    (forall (s : Session) (c : float) (sparse : bool),
       max_regenerate cfg <= regenerate_count s ->
       fst (decide_verdict cfg s c sparse) <> REGENERATE /\
       (extreme cfg c = false ->
        fst (decide_verdict cfg s c sparse) = STEP_UP) /\
       (ordered cfg = true -> in_band cfg c = true ->
        fst (decide_verdict cfg s c sparse) = STEP_UP)).
Proof.
  intros cfg. split; [|split].
  - intros calls. apply run_counts_bounded. apply map_Forall_empty.
  - intros s inputs. apply lifetime_count.
  - intros s c sparse Hspent.
    assert (extreme cfg c = false ->
            fst (decide_verdict cfg s c sparse) = STEP_UP) as Hstep.
    { intros Hmid.
      destruct (decide_cases cfg s c sparse)
        as [[_ H]|[[_ H]|[[_ [Hlt _]]|[H _]]]];
        [congruence | congruence | lia | by rewrite H]. }
    split; [|split].
    + destruct (decide_cases cfg s c sparse)
        as [[H _]|[[H _]|[[_ [Hlt _]]|[H _]]]]; [| |lia|]; by rewrite H.
    + exact Hstep.
    + intros Hord Hband. apply Hstep, band_not_extreme; assumption.
Qed.

Lemma regenerate_count_bounded_witness :
  regenerate_count
    (snd (lifetime scenario_config (fresh_session 0)
            [(0.4, false); (0.4, false); (0.4, false); (0.4, false)]%float))
    <= 2 /\
  fst (decide_verdict scenario_config
         (retried (retried (fresh_session 0))) 0.4 false) = STEP_UP.
Proof.
  destruct (regenerate_count_bounded scenario_config) as (_ & Hlife & Hspent).
  split.
  - apply (Hlife (fresh_session 0)). cbn. lia.
  - destruct (Hspent (retried (retried (fresh_session 0))) 0.4%float false)
      as (_ & _ & Hband); [cbn; lia|].
    apply Hband; reflexivity.
Defined.

(** C9: after every append the history of the session is within
    [retention_cap], whatever its length before, and so is the history of
    every session of the store after every sequence of calls.  What an
    append keeps is the end of the old history with the new event: the
    oldest events leave first, and no more of them than the cap asks for.
    For a cap of at least one that is the eviction of the oldest events
    followed by the append of the new one, which is then the last event. *)
Theorem append_within_retention_cap :
  forall (cfg : Config) (store : gmap string Session) (sid : string)
         (now : float) (e : NormalizedEvent),
    length (history (fst (append cfg store sid now e))) <= retention_cap cfg /\
    snd (append cfg store sid now e) !! sid
      = Some (fst (append cfg store sid now e)) /\
    (exists evicted : list NormalizedEvent,
       history (get_or_create store sid now) ++ [e]
         = evicted ++ history (fst (append cfg store sid now e)) /\
       length (history (fst (append cfg store sid now e)))
         = min (S (length (history (get_or_create store sid now))))
               (retention_cap cfg)) /\
    (1 <= retention_cap cfg ->
     history (fst (append cfg store sid now e))
       = drop (S (length (history (get_or_create store sid now)))
               - retention_cap cfg)
              (history (get_or_create store sid now)) ++ [e]) /\
    (forall calls : list Call,
       map_Forall (fun _ s => length (history s) <= retention_cap cfg)
                  (run cfg ∅ calls)).
Proof.
  intros cfg store sid now e.
  assert (length (history (fst (append cfg store sid now e)))
          = min (S (length (history (get_or_create store sid now))))
                (retention_cap cfg)) as Hlen.
  { rewrite append_history, retain_length, length_app. cbn [length].
    f_equal. lia. }
  split; [lia|]. split; [cbn; apply lookup_insert_eq|].
  split; [|split].
  - eexists. split; [|exact Hlen].
    rewrite append_history. apply retain_suffix.
  - intros Hcap. by apply append_evicts_first.
  - intros calls. apply run_histories_bounded, map_Forall_empty.
Qed.

Lemma append_within_retention_cap_witness :
  history (fst (append scenario_config {["s-1" := full_session]}
                  "s-1" 9 (beacon 4)))
    = [beacon 2; beacon 3] ++ [beacon 4] /\
  length (history (fst (append zero_cap_config {["s-1" := full_session]}
                          "s-1" 9 (beacon 4)))) <= 0.
Proof.
  split.
  - destruct (append_within_retention_cap scenario_config
                {["s-1" := full_session]} "s-1" 9%float (beacon 4))
      as (_ & _ & _ & Hevict & _).
    rewrite Hevict; [reflexivity | vm_compute; lia].
  - destruct (append_within_retention_cap zero_cap_config
                {["s-1" := full_session]} "s-1" 9%float (beacon 4))
      as (Hbound & _).
    exact Hbound.
Defined.

End EngineClaims.

(** * Further properties of the endpoint *)

Section EndpointFacts.

(** X1: the four members of [VerificationResult] have four different values,
    so a verdict on the wire names one member: looking a member's value up
    gives the member back, a lookup that succeeds returns the member with
    that value, and a string that is none of the four values is refused
    with [ValueError]. *)
Theorem VerificationResult_value_round_trip :
  (forall v : VerificationResult,
     VerificationResult_of_value (VerificationResult_value v) = Returned v) /\
  (forall (s : string) (v : VerificationResult),
     VerificationResult_of_value s = Returned v ->
     VerificationResult_value v = s) /\
  (forall v1 v2 : VerificationResult,
     VerificationResult_value v1 = VerificationResult_value v2 -> v1 = v2) /\
  (forall s : string,
     s ∉ ["PASS"; "FAIL"; "REGENERATE"; "STEP_UP"] ->
     VerificationResult_of_value s = Raised "ValueError").
Proof.
  assert (forall (s : string) (v : VerificationResult),
            VerificationResult_of_value s = Returned v ->
            VerificationResult_value v = s) as Hsound.
  { intros s v. unfold VerificationResult_of_value.
    repeat match goal with
      | |- context [String.eqb s ?lit] =>
          destruct (String.eqb_spec s lit) as [->|_]
      end; intros [= <-] || discriminate; reflexivity. }
  split; [by intros []|]. split; [exact Hsound|]. split.
  - by intros [] [].
  - intros s Hnot. unfold VerificationResult_of_value.
    repeat match goal with
      | |- context [String.eqb s ?lit] =>
          destruct (String.eqb_spec s lit) as [->|_]
      end; try reflexivity; exfalso; apply Hnot; set_solver.
Qed.

Lemma VerificationResult_value_round_trip_witness :
  VerificationResult_value STEP_UP = "STEP_UP" /\
  REGENERATE = REGENERATE /\
  VerificationResult_of_value "pass" = Raised "ValueError".
Proof.
  destruct VerificationResult_value_round_trip
    as (_ & Hsound & Hinj & Hrefuse).
  split; [|split].
  - apply (Hsound "STEP_UP" STEP_UP). reflexivity.
  - apply (Hinj REGENERATE REGENERATE). reflexivity.
  - apply (Hrefuse "pass"). vm_compute. intros Hin.
    repeat (apply elem_of_cons in Hin as [Heq|Hin]; [discriminate Heq|]).
    by apply elem_of_nil in Hin.
Defined.

(** X2: the response of [score] tells the number of events of the request
    and nothing else of it: two requests, with whatever session ids, events
    and process states, get the same response exactly when they hold the
    same number of events. *)
Theorem score_reveals_event_count_only :
  forall (W : Type) (w1 w2 : W) (r1 r2 : ScoringRequest),
    response_of (score r1 w1) = response_of (score r2 w2) <->
    length (events r1) = length (events r2).
Proof.
  intros W w1 w2 r1 r2. rewrite !score_returns. cbn [response_of]. split.
  - intros Hsame.
    apply (f_equal (fun r : option ScoringResponse =>
                      resp ← r; d ← details resp;
                      (d : PyDictT) !! "events_received")) in Hsame.
    cbn [mbind option_bind details] in Hsame.
    rewrite !details_lookup_events_received in Hsame.
    injection Hsame as Hlen. unfold len in Hlen. lia.
  - intros Hlen. unfold len. rewrite Hlen. reflexivity.
Qed.

(** X3: [events_received] is never negative, it is 0 exactly for a request
    without events, which is answered like any other, and the count of a
    request whose events are two lists one after the other is the sum of the
    counts of the two. *)
Theorem score_counts_events :
  forall (W : Type) (w : W) (sid : string) (first second : list Event),
  exists (resp : ScoringResponse) (d : PyDictT) (n n1 n2 : Z),
    score (mkScoringRequest sid (first ++ second)) w = (Returned resp, w) /\
    details resp = Some d /\
    d !! "events_received" = Some (PyInt n) /\
    (0 <= n)%Z /\
    (n = 0%Z <-> first ++ second = []) /\
    (exists (resp1 resp2 : ScoringResponse) (d1 d2 : PyDictT),
       score (mkScoringRequest sid first) w = (Returned resp1, w) /\
       score (mkScoringRequest sid second) w = (Returned resp2, w) /\
       details resp1 = Some d1 /\ details resp2 = Some d2 /\
       d1 !! "events_received" = Some (PyInt n1) /\
       d2 !! "events_received" = Some (PyInt n2)) /\
    n = (n1 + n2)%Z.
Proof.
  intros W w sid first second.
  eexists _, _, (len (first ++ second)), (len first), (len second).
  split; [apply score_returns|]. cbn [details events].
  split; [reflexivity|].
  split; [apply details_lookup_events_received|].
  unfold len. split; [lia|]. split; [|split].
  - split.
    + intros Hzero. apply length_zero_iff_nil. lia.
    + intros ->. reflexivity.
  - do 4 eexists.
    split; [apply score_returns|]. split; [apply score_returns|].
    cbn [details events]. split; [reflexivity|]. split; [reflexivity|].
    split; apply details_lookup_events_received.
  - rewrite length_app. lia.
Qed.

End EndpointFacts.
